(** * QuasiAtomic: quasi-atomic 64-bit accesses and the constructor fence

    A shallow embedding of [runtime/base/quasi_atomic.h].  The header is a
    class of static inline functions whose bodies are selected by the
    preprocessor; the embedding keeps the [#if] chains as conditionals on a
    record of predefined macros, runs every operation on an explicit machine
    state, and records every call and every emitted instruction in a trace. *)

From Stdlib Require Import ZArith Lia.
From stdpp Require Import base option list gmap strings.

Local Open Scope Z_scope.

(** ** Build configuration *)

(** The predefined compiler macros the header tests with [defined(...)]. *)
Record BuildTarget : Type := {
  __LP64__ : bool;
  __arm__ : bool;
  __ARM_FEATURE_LPAE : bool;
  __i386__ : bool;
  __aarch64__ : bool
}.

(** ** Values, instructions and fences *)

(** An [int64_t] is carried as a [Z]; the header only moves and compares
    such values, it never computes with them. *)
Abbreviation int64_t := Z (only parsing).

(** The memory instructions the native paths emit.  Each is one machine
    instruction (or one compiler builtin) acting on a whole 64-bit cell. *)
Inductive insn : Type :=
| load64 (addr : Z)                                (* value = *addr     *)
| store64 (addr value : Z)                         (* *addr = value     *)
| ldrd (addr : Z)
| strd (addr value : Z)
| ldrexd (addr : Z)
| strexd (addr value status : Z)
| movq_load (addr : Z)
| movq_store (addr value : Z)
| sync_bool_compare_and_swap (addr old_value new_value : Z).

Inductive memory_order : Type :=
| memory_order_relaxed
| memory_order_consume
| memory_order_acquire
| memory_order_release
| memory_order_acq_rel
| memory_order_seq_cst.

(** The two barriers [ThreadFenceForConstructor] can emit. *)
Inductive fence : Type :=
| dmb_ishst
| atomic_thread_fence (order : memory_order).

Inductive access : Type := LoadAccess | StoreAccess.

(** [orders f before after]: the fence [f] guarantees that every [before]
    access preceding it in program order stays ahead of every [after]
    access following it.  [dmb ishst] waits for stores only and orders them
    against later stores; the C++ fences follow [atomics.fences]: an
    acquire fence orders earlier loads, a release fence orders later
    stores, [seq_cst] orders everything. *)
Definition orders (f : fence) (before after : access) : bool :=
  match f with
  | dmb_ishst =>
      match before, after with StoreAccess, StoreAccess => true | _, _ => false end
  | atomic_thread_fence memory_order_relaxed => false
  | atomic_thread_fence memory_order_consume
  | atomic_thread_fence memory_order_acquire =>
      match before with LoadAccess => true | StoreAccess => false end
  | atomic_thread_fence memory_order_release =>
      match after with StoreAccess => true | LoadAccess => false end
  | atomic_thread_fence memory_order_acq_rel =>
      match before, after with StoreAccess, LoadAccess => false | _, _ => true end
  | atomic_thread_fence memory_order_seq_cst => true
  end.

Definition store_store_only (f : fence) : bool :=
  orders f StoreAccess StoreAccess && negb (orders f LoadAccess StoreAccess)
  && negb (orders f LoadAccess LoadAccess) && negb (orders f StoreAccess LoadAccess).

(** ** Machine state *)

(** Modelled from the spec: [class Mutex] is only forward-declared in the
    header; the spec describes it as a non-reentrant exclusive lock with a
    blocking acquire and a release.  A lock is its position in the pool and
    whether it is currently held. *)
Record Mutex : Type := {
  stripe : nat;
  held : bool
}.

(** What an operation leaves in the trace. *)
Inductive event (ISA : Type) : Type :=
| ENeedSwapMutexes (isa : ISA)
| EInsn (i : insn)
| EFence (f : fence)
| ELogFatal (diagnostic : string)
| ESwapMutexRead64 (addr : Z)
| ESwapMutexWrite64 (addr val : Z)
| ESwapMutexCas64 (old_value new_value addr : Z).

Arguments ENeedSwapMutexes {ISA} isa.
Arguments EInsn {ISA} i.
Arguments EFence {ISA} f.
Arguments ELogFatal {ISA} diagnostic.
Arguments ESwapMutexRead64 {ISA} addr.
Arguments ESwapMutexWrite64 {ISA} addr val.
Arguments ESwapMutexCas64 {ISA} old_value new_value addr.

(** [memory] holds the 64-bit cells the caller owns, keyed by address; an
    address outside its domain is not valid.  [exclusive_ok] is what the
    hardware will answer to the coming [strexd] instructions: [true] when
    the exclusive store goes through, [false] when the reservation was lost.
    [gSwapMutexes] is the static pool pointer of the class ([None] is the
    null pointer). *)
Record machine (ISA : Type) : Type := {
  memory : gmap Z Z;
  exclusive_ok : list bool;
  gSwapMutexes : option (list Mutex);
  trace : list (event ISA)
}.

Arguments memory {ISA} m.
Arguments exclusive_ok {ISA} m.
Arguments gSwapMutexes {ISA} m.
Arguments trace {ISA} m.

(** How a call ends. *)
Inductive result (ISA A : Type) : Type :=
| Returns (a : A) (m : machine ISA)
| Aborts (diagnostic : string) (m : machine ISA)   (* LOG(FATAL) *)
| Faults (m : machine ISA)                         (* access to an invalid address *)
| Spins (m : machine ISA).                         (* still waiting or retrying *)

Arguments Returns {ISA A} a m.
Arguments Aborts {ISA A} diagnostic m.
Arguments Faults {ISA A} m.
Arguments Spins {ISA A} m.

Definition final {ISA A} (r : result ISA A) : machine ISA :=
  match r with
  | Returns _ m | Aborts _ m | Faults m | Spins m => m
  end.

Definition returned {ISA A} (r : result ISA A) : option A :=
  match r with
  | Returns a _ => Some a
  | _ => None
  end.

Definition M (ISA A : Type) : Type := machine ISA → result ISA A.

#[global] Instance M_ret {ISA} : MRet (M ISA) := λ A a m, Returns a m.

#[global] Instance M_bind {ISA} : MBind (M ISA) := λ A B k c m,
  match c m with
  | Returns a m' => k a m'
  | Aborts d m' => Aborts d m'
  | Faults m' => Faults m'
  | Spins m' => Spins m'
  end.

Section Primitives.
Context {ISA : Type}.

Definition record (e : event ISA) (m : machine ISA) : machine ISA :=
  {| memory := memory m; exclusive_ok := exclusive_ok m;
     gSwapMutexes := gSwapMutexes m; trace := trace m ++ [e] |}.

Definition poke (addr value : Z) (m : machine ISA) : machine ISA :=
  {| memory := <[addr := value]> (memory m); exclusive_ok := exclusive_ok m;
     gSwapMutexes := gSwapMutexes m; trace := trace m |}.

Definition emit (e : event ISA) : M ISA unit :=
  λ m, Returns tt (record e m).

(** A 64-bit load by the instruction [i]. *)
Definition exec_load (i : Z → insn) (addr : Z) : M ISA int64_t :=
  λ m, match memory m !! addr with
       | Some v => Returns v (record (EInsn (i addr)) m)
       | None => Faults m
       end.

(** A 64-bit store by the instruction [i]. *)
Definition exec_store (i : Z → Z → insn) (addr value : Z) : M ISA unit :=
  λ m, match memory m !! addr with
       | Some _ => Returns tt (record (EInsn (i addr value)) (poke addr value m))
       | None => Faults m
       end.

(** [strexd]: the store happens exactly when the hardware reports status
    0.  When the machine does not say what the hardware answers, the
    caller is left inside its loop. *)
Definition exec_strexd (addr value : Z) : M ISA Z :=
  λ m, match memory m !! addr, exclusive_ok m with
       | None, _ => Faults m
       | Some _, [] => Spins m
       | Some _, ok :: rest =>
           let m1 := {| memory := memory m; exclusive_ok := rest;
                        gSwapMutexes := gSwapMutexes m; trace := trace m |} in
           if ok
           then Returns 0 (record (EInsn (strexd addr value 0)) (poke addr value m1))
           else Returns 1 (record (EInsn (strexd addr value 1)) m1)
       end.

(** [__sync_bool_compare_and_swap (ptr, oldval, newval)]: if the current
    value of [*ptr] is [oldval], write [newval] and return true. *)
Definition exec_sync_bool_compare_and_swap (ptr oldval newval : Z) : M ISA bool :=
  λ m, match memory m !! ptr with
       | Some cur =>
           let m1 := record (EInsn (sync_bool_compare_and_swap ptr oldval newval)) m in
           if bool_decide (cur = oldval)
           then Returns true (poke ptr newval m1)
           else Returns false m1
       | None => Faults m
       end.

(** [LOG(FATAL) << diagnostic] aborts the process. *)
Definition LOG_FATAL {A} (diagnostic : string) : M ISA A :=
  λ m, Aborts diagnostic (record (ELogFatal diagnostic) m).
End Primitives.

(** ** The class [QuasiAtomic] *)

Section QuasiAtomic.
Context {InstructionSet : Type}.

(** [arch/instruction_set.h] supplies the enumeration and the constant
    [kRuntimeISA]; the compiler supplies the predefined macros. *)
Variable kRuntimeISA : InstructionSet.
Variable target : BuildTarget.

(** The mutex-striped variants are declared in the class and defined
    out of line. *)
Variable SwapMutexRead64 : Z → M InstructionSet int64_t.
Variable SwapMutexWrite64 : Z → int64_t → M InstructionSet unit.
Variable SwapMutexCas64 : int64_t → int64_t → Z → M InstructionSet bool.

Definition NeedSwapMutexes (isa : InstructionSet) : bool := false.

(** A call of the selector, as it shows in the trace. *)
Definition call_NeedSwapMutexes (isa : InstructionSet) : M InstructionSet bool :=
  _ ← emit (ENeedSwapMutexes isa); mret (NeedSwapMutexes isa).

Definition call_SwapMutexRead64 (addr : Z) : M InstructionSet int64_t :=
  _ ← emit (ESwapMutexRead64 addr); SwapMutexRead64 addr.

Definition call_SwapMutexWrite64 (addr : Z) (val : int64_t) : M InstructionSet unit :=
  _ ← emit (ESwapMutexWrite64 addr val); SwapMutexWrite64 addr val.

Definition call_SwapMutexCas64 (old_value new_value : int64_t) (addr : Z)
  : M InstructionSet bool :=
  _ ← emit (ESwapMutexCas64 old_value new_value addr);
  SwapMutexCas64 old_value new_value addr.

(** The body of [Read64] once the selector has answered [need]. *)
Definition Read64_branch (need : bool) (addr : Z) : M InstructionSet int64_t :=
  if negb need then
    value ← (if __LP64__ target then exec_load load64 addr
             else if __arm__ target then
               if __ARM_FEATURE_LPAE target then exec_load ldrd addr
               else exec_load ldrexd addr
             else if __i386__ target then exec_load movq_load addr
             else LOG_FATAL "Unsupported architecture");
    mret value
  else call_SwapMutexRead64 addr.

Definition Read64 (addr : Z) : M InstructionSet int64_t :=
  need ← call_NeedSwapMutexes kRuntimeISA; Read64_branch need addr.

(** The [do { ldrexd; strexd } while (status != 0)] loop.  Every turn
    takes one answer from [exclusive_ok], so [fuel] one above the number
    of answers left is never used up. *)
Fixpoint Write64_do_while (fuel : nat) (addr : Z) (value : int64_t)
  : M InstructionSet unit :=
  match fuel with
  | O => Spins
  | S fuel' =>
      prev ← exec_load ldrexd addr;
      status ← exec_strexd addr value;
      if bool_decide (status ≠ 0) then Write64_do_while fuel' addr value
      else mret tt
  end.

(** The body of [Write64] once the selector has answered [need]. *)
Definition Write64_branch (need : bool) (addr : Z) (value : int64_t)
  : M InstructionSet unit :=
  if negb need then
    if __LP64__ target then exec_store store64 addr value
    else if __arm__ target then
      if __ARM_FEATURE_LPAE target then exec_store strd addr value
      else λ m, Write64_do_while (S (length (exclusive_ok m))) addr value m
    else if __i386__ target then exec_store movq_store addr value
    else LOG_FATAL "Unsupported architecture"
  else call_SwapMutexWrite64 addr value.

Definition Write64 (addr : Z) (value : int64_t) : M InstructionSet unit :=
  need ← call_NeedSwapMutexes kRuntimeISA; Write64_branch need addr value.

(** The body of [Cas64] once the selector has answered [need]. *)
Definition Cas64_branch (need : bool) (old_value new_value : int64_t) (addr : Z)
  : M InstructionSet bool :=
  if negb need then exec_sync_bool_compare_and_swap addr old_value new_value
  else call_SwapMutexCas64 old_value new_value addr.

Definition Cas64 (old_value new_value : int64_t) (addr : Z) : M InstructionSet bool :=
  need ← call_NeedSwapMutexes kRuntimeISA;
  Cas64_branch need old_value new_value addr.

Definition LongAtomicsUseMutexes (isa : InstructionSet) : M InstructionSet bool :=
  call_NeedSwapMutexes isa.

Definition ThreadFenceForConstructor_fence : fence :=
  if __aarch64__ target then dmb_ishst
  else atomic_thread_fence memory_order_release.

Definition ThreadFenceForConstructor : M InstructionSet unit :=
  emit (EFence ThreadFenceForConstructor_fence).

Definition kSwapMutexCount : nat := 32.
End QuasiAtomic.

(** ** The out-of-line members: lifecycle and the mutex-striped variants

    [Startup], [Shutdown], [GetSwapMutex] and the three [SwapMutex...]
    members are declared in the header and defined elsewhere. *)

Section OutOfLine.
Context {InstructionSet : Type}.
Variable kRuntimeISA : InstructionSet.

(** The architecture policy and the address-to-stripe hash are left
    open by the spec: any pure selector, any deterministic hash. *)
Variable RequiresFallback : InstructionSet → bool.
Variable AddressStripeMapping : Z → nat.

(** Assignment to the static [gSwapMutexes]. *)
Definition set_pool (pool : option (list Mutex)) (m : machine InstructionSet)
  : machine InstructionSet :=
  {| memory := memory m; exclusive_ok := exclusive_ok m;
     gSwapMutexes := pool; trace := trace m |}.

(** Modelled from the spec: a freshly allocated lock of the pool, "an
    independent exclusive lock", free, at position [i]. *)
Definition new_Mutex (i : nat) : Mutex := {| stripe := i; held := false |}.

(** Modelled from the spec: [Startup] is not in the header.  "If fallback
    strategy is active for the current architecture, allocates the
    MutexPool with exactly 32 independent locks; otherwise a no-op."
    Allocation is taken to succeed: the spec makes its failure fatal. *)
Definition Startup : M InstructionSet unit :=
  λ m, if RequiresFallback kRuntimeISA
       then Returns tt (set_pool (Some (new_Mutex <$> seq 0 kSwapMutexCount)) m)
       else Returns tt m.

(** Modelled from the spec: [Shutdown] is not in the header.  "Releases
    all pool resources." *)
Definition Shutdown : M InstructionSet unit :=
  λ m, Returns tt (set_pool None m).

(** Modelled from the spec: [GetSwapMutex] is not in the header.  "A
    deterministic hash of address into one of the 32 pool entries."  The
    lock handle is the position of the lock in the pool; outside the
    Startup/Shutdown window, or outside the pool, the call is undefined. *)
Definition GetSwapMutex (addr : Z) : M InstructionSet nat :=
  λ m, match gSwapMutexes m with
       | None => Faults m
       | Some pool =>
           match pool !! AddressStripeMapping addr with
           | Some _ => Returns (AddressStripeMapping addr) m
           | None => Faults m
           end
       end.

(** Modelled from the spec: the lock primitive's blocking acquire.  A
    lock that is held keeps the caller waiting. *)
Definition ExclusiveLock (i : nat) : M InstructionSet unit :=
  λ m, match gSwapMutexes m with
       | None => Faults m
       | Some pool =>
           match pool !! i with
           | None => Faults m
           | Some mu =>
               if held mu then Spins m
               else Returns tt
                      (set_pool (Some (<[i := {| stripe := stripe mu; held := true |}]> pool)) m)
           end
       end.

(** Modelled from the spec: the lock primitive's release. *)
Definition ExclusiveUnlock (i : nat) : M InstructionSet unit :=
  λ m, match gSwapMutexes m with
       | None => Faults m
       | Some pool =>
           match pool !! i with
           | None => Faults m
           | Some mu =>
               Returns tt
                 (set_pool (Some (<[i := {| stripe := stripe mu; held := false |}]> pool)) m)
           end
       end.

(** Modelled from the spec: [SwapMutexRead64] is not in the header.
    "Acquire the stripe's lock, perform a plain (non-atomic) memory read,
    release the lock." *)
Definition SwapMutexRead64 (addr : Z) : M InstructionSet int64_t :=
  i ← GetSwapMutex addr;
  _ ← ExclusiveLock i;
  value ← exec_load load64 addr;
  _ ← ExclusiveUnlock i;
  mret value.

(** Modelled from the spec: [SwapMutexWrite64] is not in the header.
    "Acquire the stripe's lock, perform a plain write, release the lock." *)
Definition SwapMutexWrite64 (addr : Z) (val : int64_t) : M InstructionSet unit :=
  i ← GetSwapMutex addr;
  _ ← ExclusiveLock i;
  _ ← exec_store store64 addr val;
  ExclusiveUnlock i.

(** Modelled from the spec: [SwapMutexCas64] is not in the header.
    "Acquire the stripe's lock, perform a plain
    compare-and-conditionally-write, release the lock." *)
Definition SwapMutexCas64 (old_value new_value : int64_t) (addr : Z)
  : M InstructionSet bool :=
  i ← GetSwapMutex addr;
  _ ← ExclusiveLock i;
  cur ← exec_load load64 addr;
  swapped ← (if bool_decide (cur = old_value)
             then _ ← exec_store store64 addr new_value; mret true
             else mret false);
  _ ← ExclusiveUnlock i;
  mret swapped.

(** Every call a client can make between [Startup] and [Shutdown]. *)
Inductive operation : Type :=
| OpRead64 (addr : Z)
| OpWrite64 (addr : Z) (value : int64_t)
| OpCas64 (old_value new_value : int64_t) (addr : Z)
| OpLongAtomicsUseMutexes (isa : InstructionSet)
| OpThreadFenceForConstructor
| OpSwapMutexRead64 (addr : Z)
| OpSwapMutexWrite64 (addr : Z) (val : int64_t)
| OpSwapMutexCas64 (old_value new_value : int64_t) (addr : Z).

Variable target : BuildTarget.

Definition void {A} (c : M InstructionSet A) : M InstructionSet unit :=
  _ ← c; mret tt.

Definition perform (o : operation) : M InstructionSet unit :=
  match o with
  | OpRead64 addr =>
      void (Read64 kRuntimeISA target SwapMutexRead64 addr)
  | OpWrite64 addr value =>
      Write64 kRuntimeISA target SwapMutexWrite64 addr value
  | OpCas64 old_value new_value addr =>
      void (Cas64 kRuntimeISA SwapMutexCas64 old_value new_value addr)
  | OpLongAtomicsUseMutexes isa => void (LongAtomicsUseMutexes isa)
  | OpThreadFenceForConstructor => ThreadFenceForConstructor target
  | OpSwapMutexRead64 addr => void (SwapMutexRead64 addr)
  | OpSwapMutexWrite64 addr val => SwapMutexWrite64 addr val
  | OpSwapMutexCas64 old_value new_value addr =>
      void (SwapMutexCas64 old_value new_value addr)
  end.

Fixpoint perform_all (os : list operation) : M InstructionSet unit :=
  match os with
  | [] => mret tt
  | o :: os' => _ ← perform o; perform_all os'
  end.
End OutOfLine.

Arguments OpRead64 {InstructionSet} addr.
Arguments OpWrite64 {InstructionSet} addr value.
Arguments OpCas64 {InstructionSet} old_value new_value addr.
Arguments OpLongAtomicsUseMutexes {InstructionSet} isa.
Arguments OpThreadFenceForConstructor {InstructionSet}.
Arguments OpSwapMutexRead64 {InstructionSet} addr.
Arguments OpSwapMutexWrite64 {InstructionSet} addr val.
Arguments OpSwapMutexCas64 {InstructionSet} old_value new_value addr.

(** ** Reading traces *)

Definition is_selector_call {ISA} (e : event ISA) : bool :=
  match e with ENeedSwapMutexes _ => true | _ => false end.

Definition is_fallback_call {ISA} (e : event ISA) : bool :=
  match e with
  | ESwapMutexRead64 _ | ESwapMutexWrite64 _ _ | ESwapMutexCas64 _ _ _ => true
  | _ => false
  end.

(** What the native branches leave in the trace: instructions, or the
    fatal diagnostic. *)
Definition is_native_step {ISA} (e : event ISA) : bool :=
  match e with EInsn _ | ELogFatal _ => true | _ => false end.

(** The events a call added to the trace of the machine it started on. *)
Definition emitted {ISA A} (m : machine ISA) (r : result ISA A) : list (event ISA) :=
  drop (length (trace m)) (trace (final r)).

Definition count {ISA} (p : event ISA → bool) (l : list (event ISA)) : nat :=
  length (List.filter p l).

(** A call that only appends native steps to the trace of the machine it
    is started on. *)
Definition native_only {ISA A} (c : M ISA A) : Prop :=
  ∀ m, ∃ l, trace (final (c m)) = trace m ++ l ∧ forallb is_native_step l = true.

(** The locks of the pool, by position, whatever their state. *)
Definition pool_stripes {ISA} (m : machine ISA) : option (list nat) :=
  fmap (M := list) stripe <$> gSwapMutexes m.

(** A call that, however it ends, leaves the same locks in the pool. *)
Definition keeps_pool {ISA A} (c : M ISA A) : Prop :=
  ∀ m, pool_stripes (final (c m)) = pool_stripes m.

(** One turn of the retry loop of [Write64], as it shows in the trace. *)
Definition retry_turn {ISA} (addr value status : Z) : list (event ISA) :=
  [EInsn (ldrexd addr); EInsn (strexd addr value status)].

(** The machine after [n] turns of the loop whose exclusive store failed,
    with the hardware answers [pending] still to come. *)
Definition after_failed_turns {ISA} (n : nat) (addr value : Z) (pending : list bool)
    (m : machine ISA) : machine ISA :=
  {| memory := memory m; exclusive_ok := pending; gSwapMutexes := gSwapMutexes m;
     trace := trace m ++ mjoin (replicate n (retry_turn addr value 1)) |}.

(** Targets on which [Write64] has no direct atomic store and retries. *)
Definition uses_retry_loop (t : BuildTarget) : bool :=
  negb (__LP64__ t) && __arm__ t && negb (__ARM_FEATURE_LPAE t).

(** Targets for which one of the native branches is compiled in. *)
Definition has_native_path (t : BuildTarget) : bool :=
  __LP64__ t || __arm__ t || __i386__ t.

(** ** Sequences of calls *)

(** A call of one of the three accessors, and what it hands back. *)
Inductive call : Type :=
| CallRead64 (addr : Z)
| CallWrite64 (addr : Z) (value : int64_t)
| CallCas64 (old_value new_value : int64_t) (addr : Z).

Inductive answer : Type :=
| ReadValue (value : int64_t)
| Written
| Swapped (swapped : bool).

Section Calls.
Context {InstructionSet : Type}.
Variable kRuntimeISA : InstructionSet.
Variable target : BuildTarget.
Variable SwapMutexRead64 : Z → M InstructionSet int64_t.
Variable SwapMutexWrite64 : Z → int64_t → M InstructionSet unit.
Variable SwapMutexCas64 : int64_t → int64_t → Z → M InstructionSet bool.

Definition issue (c : call) : M InstructionSet answer :=
  match c with
  | CallRead64 addr =>
      value ← Read64 kRuntimeISA target SwapMutexRead64 addr; mret (ReadValue value)
  | CallWrite64 addr value =>
      _ ← Write64 kRuntimeISA target SwapMutexWrite64 addr value; mret Written
  | CallCas64 old_value new_value addr =>
      swapped ← Cas64 kRuntimeISA SwapMutexCas64 old_value new_value addr;
      mret (Swapped swapped)
  end.

(** The calls of [cs] one after the other, with their answers in order. *)
Fixpoint issue_all (cs : list call) : M InstructionSet (list answer) :=
  match cs with
  | [] => mret []
  | c :: cs' => a ← issue c; rest ← issue_all cs'; mret (a :: rest)
  end.
End Calls.

(** What the comments of the header promise for each accessor, on the
    cells alone: "reads the 64-bit value at addr", "writes to the 64-bit
    value at addr", "compare the value at addr to old_value, if equal
    replace it with new_value and return true; otherwise, don't swap, and
    return false".  [None] when the address is not a cell. *)
Definition cell_step (c : call) (cells : gmap Z Z) : option (answer * gmap Z Z) :=
  match c with
  | CallRead64 addr =>
      match cells !! addr with
      | Some value => Some (ReadValue value, cells)
      | None => None
      end
  | CallWrite64 addr value =>
      match cells !! addr with
      | Some _ => Some (Written, <[addr := value]> cells)
      | None => None
      end
  | CallCas64 old_value new_value addr =>
      match cells !! addr with
      | Some cur =>
          if bool_decide (cur = old_value)
          then Some (Swapped true, <[addr := new_value]> cells)
          else Some (Swapped false, cells)
      | None => None
      end
  end.

Fixpoint cell_run (cs : list call) (cells : gmap Z Z)
  : option (list answer * gmap Z Z) :=
  match cs with
  | [] => Some ([], cells)
  | c :: cs' =>
      match cell_step c cells with
      | Some (a, cells') =>
          match cell_run cs' cells' with
          | Some (rest, cells'') => Some (a :: rest, cells'')
          | None => None
          end
      | None => None
      end
  end.

(** The number of [Write64] calls in a sequence, and the number of
    exclusive stores the hardware will let through. *)
Definition writes (cs : list call) : nat :=
  length (List.filter (λ c, match c with CallWrite64 _ _ => true | _ => false end) cs).

Definition successes (answers : list bool) : nat :=
  length (List.filter id answers).

(** ** Instructions and their preprocessor conditions *)

(** The condition under which the header compiles an instruction in: the
    plain access under [__LP64__]; otherwise [ldrd]/[strd] under [__arm__]
    with [__ARM_FEATURE_LPAE], [ldrexd]/[strexd] under [__arm__] without
    it; otherwise [movq] under [__i386__].  The compare-and-swap builtin is
    under no condition. *)
Definition compiled_in (t : BuildTarget) (i : insn) : bool :=
  match i with
  | load64 _ | store64 _ _ => __LP64__ t
  | ldrd _ | strd _ _ =>
      negb (__LP64__ t) && __arm__ t && __ARM_FEATURE_LPAE t
  | ldrexd _ | strexd _ _ _ =>
      negb (__LP64__ t) && __arm__ t && negb (__ARM_FEATURE_LPAE t)
  | movq_load _ | movq_store _ _ =>
      negb (__LP64__ t) && negb (__arm__ t) && __i386__ t
  | sync_bool_compare_and_swap _ _ _ => true
  end.

(** An event that is no mutex call, and whose instruction, if it is one,
    is compiled in on [t]. *)
Definition allowed_on {ISA} (t : BuildTarget) (e : event ISA) : bool :=
  match e with
  | EInsn i => compiled_in t i
  | ESwapMutexRead64 _ | ESwapMutexWrite64 _ _ | ESwapMutexCas64 _ _ _ => false
  | _ => true
  end.


(** A call that appends to the trace only events satisfying [p]. *)
Definition appends_only {ISA A} (p : event ISA → bool) (c : M ISA A) : Prop :=
  ∀ m, ∃ l, trace (final (c m)) = trace m ++ l ∧ forallb p l = true.

(** ** Concrete instances *)

(** An enumeration standing for the one of [arch/instruction_set.h] in the
    concrete instances below; the development is generic in it. *)
Inductive SomeInstructionSet : Type := kArm | kArm64 | kX86 | kX86_64.

Definition target_arm64 : BuildTarget :=
  {| __LP64__ := true; __arm__ := false; __ARM_FEATURE_LPAE := false;
     __i386__ := false; __aarch64__ := true |}.

Definition target_x86_64 : BuildTarget :=
  {| __LP64__ := true; __arm__ := false; __ARM_FEATURE_LPAE := false;
     __i386__ := false; __aarch64__ := false |}.

Definition target_armv7 : BuildTarget :=
  {| __LP64__ := false; __arm__ := true; __ARM_FEATURE_LPAE := false;
     __i386__ := false; __aarch64__ := false |}.

Definition target_armv7_lpae : BuildTarget :=
  {| __LP64__ := false; __arm__ := true; __ARM_FEATURE_LPAE := true;
     __i386__ := false; __aarch64__ := false |}.

Definition target_i386 : BuildTarget :=
  {| __LP64__ := false; __arm__ := false; __ARM_FEATURE_LPAE := false;
     __i386__ := true; __aarch64__ := false |}.

(** A 32-bit target that is neither ARM nor x86. *)
Definition target_other32 : BuildTarget :=
  {| __LP64__ := false; __arm__ := false; __ARM_FEATURE_LPAE := false;
     __i386__ := false; __aarch64__ := false |}.

(** One cell at address 4096 holding 100; the next two exclusive stores
    fail, the third goes through. *)
Definition machine0 : machine SomeInstructionSet :=
  {| memory := {[ 4096 := 100 ]}; exclusive_ok := [false; false; true];
     gSwapMutexes := None; trace := [] |}.

(** The same cell on contended hardware: the next three exclusive stores
    all fail. *)
Definition machine_contended : machine SomeInstructionSet :=
  {| memory := {[ 4096 := 100 ]}; exclusive_ok := [false; false; false];
     gSwapMutexes := None; trace := [] |}.

(** The same cell on hardware that fails one exclusive store out of two. *)
Definition machine_flaky : machine SomeInstructionSet :=
  {| memory := {[ 4096 := 100 ]}; exclusive_ok := [false; true; false; true];
     gSwapMutexes := None; trace := [] |}.

Definition always_fallback (isa : SomeInstructionSet) : bool := true.

Definition shift_and_modulo (addr : Z) : nat := Z.to_nat ((addr ≫ 3) `mod` 32).

(** ** Properties of the inline members *)

(** Unfold the monad and the members down to the machine. *)
Ltac run :=
  unfold Read64, Write64, Cas64, Read64_branch, Write64_branch, Cas64_branch,
    LongAtomicsUseMutexes, ThreadFenceForConstructor,
    call_NeedSwapMutexes, NeedSwapMutexes, call_SwapMutexRead64,
    call_SwapMutexWrite64, call_SwapMutexCas64, LOG_FATAL,
    exec_sync_bool_compare_and_swap, exec_load, exec_store, emit,
    mbind, M_bind, mret, M_ret;
  cbn.

Section Properties.
Context {InstructionSet : Type}.
Variable kRuntimeISA : InstructionSet.
Variable fallbackRead64 : Z → M InstructionSet int64_t.
Variable fallbackWrite64 : Z → int64_t → M InstructionSet unit.
Variable fallbackCas64 : int64_t → int64_t → Z → M InstructionSet bool.

Local Abbreviation Read64' t := (Read64 kRuntimeISA t fallbackRead64).
Local Abbreviation Write64' t := (Write64 kRuntimeISA t fallbackWrite64).
Local Abbreviation Cas64' := (Cas64 kRuntimeISA fallbackCas64).
Local Abbreviation native_here := (native_only (ISA := InstructionSet)).

(** C1. On a valid address Cas64 returns, and it returns true exactly when
    the cell holds [old_value] at the instant of the compare: then the cell
    holds [new_value] afterwards and no other cell changed; otherwise memory
    is as it was.  A false return therefore means the value observed was
    not [old_value]: the compare-and-swap is strong. *)
Theorem Cas64_strong (old_value new_value addr cur : Z) (m : machine InstructionSet) :
  memory m !! addr = Some cur →
  ∃ m',
    Cas64' old_value new_value addr m = Returns (bool_decide (cur = old_value)) m'
    ∧ (cur = old_value → memory m' = <[addr := new_value]> (memory m))
    ∧ (cur ≠ old_value → memory m' = memory m)
    ∧ (∀ m'', Cas64' old_value new_value addr m = Returns false m'' → cur ≠ old_value)
    ∧ (∀ m'', Cas64' old_value new_value addr m = Returns true m'' →
         cur = old_value ∧ memory m'' !! addr = Some new_value).
Proof.
  intros Hcur.
  run. rewrite Hcur.
  case_bool_decide as Heq; eexists; (split; [reflexivity |]); cbn.
  - split; [done |]. split; [done |]. split; [done |].
    intros m'' [= <-]. cbn. by rewrite lookup_insert_eq.
  - split; [done |]. split; [done |]. split; [intros _ _; exact Heq | done].
Qed.

(** *** What the calls leave in the trace *)

Lemma emitted_app {A} (m : machine InstructionSet) (r : result InstructionSet A) l :
  trace (final r) = trace m ++ l → emitted m r = l.
Proof. unfold emitted. intros ->. by rewrite drop_app_length. Qed.

Lemma native_steps_no_calls (l : list (event InstructionSet)) :
  forallb is_native_step l = true →
  count is_fallback_call l = 0%nat ∧ count is_selector_call l = 0%nat.
Proof.
  induction l as [| e l IH]; [done |].
  cbn. intros [He Hl]%andb_prop. destruct (IH Hl) as [IH1 IH2].
  unfold count in *. by destruct e; try discriminate He; cbn.
Qed.

Lemma native_only_load i addr : native_here (exec_load i addr).
Proof.
  intros m. unfold exec_load. destruct (memory m !! addr); cbn.
  - by eexists [_].
  - exists []. by rewrite app_nil_r.
Qed.

Lemma native_only_store i addr value : native_here (exec_store i addr value).
Proof.
  intros m. unfold exec_store. destruct (memory m !! addr); cbn.
  - by eexists [_].
  - exists []. by rewrite app_nil_r.
Qed.

Lemma native_only_strexd addr value : native_here (exec_strexd addr value).
Proof.
  intros m. unfold exec_strexd.
  destruct (memory m !! addr); [| exists []; by rewrite app_nil_r].
  destruct (exclusive_ok m) as [| [] rest]; cbn.
  - exists []. by rewrite app_nil_r.
  - by eexists [_].
  - by eexists [_].
Qed.

Lemma native_only_fatal {A} diagnostic : native_here (@LOG_FATAL InstructionSet A diagnostic).
Proof. intros m. by eexists [_]. Qed.

Lemma native_only_ret {A} (a : A) : native_here (mret a : M InstructionSet A).
Proof. intros m. exists []. by rewrite app_nil_r. Qed.

Lemma native_only_bind {A B} (c : M InstructionSet A) (k : A → M InstructionSet B) :
  native_here c → (∀ a, native_here (k a)) → native_here (c ≫= k).
Proof.
  intros Hc Hk m. destruct (Hc m) as (l & Hl & Hn).
  unfold mbind, M_bind. destruct (c m) as [a m1 | d m1 | m1 | m1]; cbn in *; eauto.
  destruct (Hk a m1) as (l' & Hl' & Hn').
  exists (l ++ l'). rewrite Hl', Hl, forallb_app, Hn, Hn'.
  split; [by rewrite <- app_assoc | done].
Qed.

Lemma native_only_do_while fuel addr value :
  native_here (Write64_do_while fuel addr value).
Proof.
  induction fuel as [| fuel IH]; cbn.
  - intros m. exists []. by rewrite app_nil_r.
  - apply native_only_bind; [apply native_only_load |]. intros _.
    apply native_only_bind; [apply native_only_strexd |]. intros status.
    case_bool_decide; [exact IH | apply native_only_ret].
Qed.

Lemma native_only_cas addr old_value new_value :
  native_here (exec_sync_bool_compare_and_swap (ISA := InstructionSet) addr old_value new_value).
Proof.
  intros m. unfold exec_sync_bool_compare_and_swap.
  destruct (memory m !! addr); [| exists []; by rewrite app_nil_r].
  case_bool_decide; by eexists [_].
Qed.

Lemma Read64_branch_native t addr :
  native_here (Read64_branch t fallbackRead64 false addr).
Proof.
  unfold Read64_branch. cbn.
  apply native_only_bind; [| intros; apply native_only_ret].
  destruct (__LP64__ t), (__arm__ t), (__ARM_FEATURE_LPAE t), (__i386__ t);
    first [apply native_only_load | apply native_only_fatal].
Qed.

Lemma Write64_branch_native t addr value :
  native_here (Write64_branch t fallbackWrite64 false addr value).
Proof.
  unfold Write64_branch.
  destruct (__LP64__ t), (__arm__ t), (__ARM_FEATURE_LPAE t), (__i386__ t);
    first [apply native_only_store | apply native_only_fatal
          | intros m; exact (native_only_do_while _ _ _ m)].
Qed.

Lemma Cas64_branch_native old_value new_value addr :
  native_here (Cas64_branch fallbackCas64 false old_value new_value addr).
Proof. apply native_only_cas. Qed.

(** After the selector has answered false, a call adds the selector event
    and native steps, nothing else. *)
Lemma emitted_after_selector {A} (c : M InstructionSet A) m :
  native_here c →
  ∃ l, emitted m (c (record (ENeedSwapMutexes kRuntimeISA) m))
       = ENeedSwapMutexes kRuntimeISA :: l
     ∧ forallb is_native_step l = true.
Proof.
  intros Hc. destruct (Hc (record (ENeedSwapMutexes kRuntimeISA) m)) as (l & Hl & Hn).
  exists l. split; [| done]. apply emitted_app. rewrite Hl. cbn.
  by rewrite <- app_assoc.
Qed.

(** *** The selector *)

(** C4. [NeedSwapMutexes] answers false for every instruction set, and so
    does [LongAtomicsUseMutexes].  Hence [Read64], [Write64] and [Cas64]
    take the native branch: after the selector event they leave only
    native steps in the trace, none of the three [SwapMutex...] members is
    called, and the outcome is the same whatever those members would do. *)
Theorem swap_mutexes_never_needed (target : BuildTarget) (isa : InstructionSet)
    (addr value old_value new_value : Z) (m : machine InstructionSet) :
  NeedSwapMutexes isa = false
  ∧ LongAtomicsUseMutexes isa m = Returns false (record (ENeedSwapMutexes isa) m)
  ∧ (∃ l, emitted m (Read64' target addr m) = ENeedSwapMutexes kRuntimeISA :: l
          ∧ forallb is_native_step l = true
          ∧ count is_fallback_call (emitted m (Read64' target addr m)) = 0%nat)
  ∧ (∃ l, emitted m (Write64' target addr value m) = ENeedSwapMutexes kRuntimeISA :: l
          ∧ forallb is_native_step l = true
          ∧ count is_fallback_call (emitted m (Write64' target addr value m)) = 0%nat)
  ∧ (∃ l, emitted m (Cas64' old_value new_value addr m) = ENeedSwapMutexes kRuntimeISA :: l
          ∧ forallb is_native_step l = true
          ∧ count is_fallback_call (emitted m (Cas64' old_value new_value addr m)) = 0%nat)
  ∧ (∀ f, Read64 kRuntimeISA target f addr m = Read64' target addr m)
  ∧ (∀ f, Write64 kRuntimeISA target f addr value m = Write64' target addr value m)
  ∧ (∀ f, Cas64 kRuntimeISA f old_value new_value addr m
          = Cas64' old_value new_value addr m).
Proof.
  split; [reflexivity |]. split; [reflexivity |].
  assert (Hcount : ∀ A (c : M InstructionSet A), native_here c →
    ∃ l, emitted m (c (record (ENeedSwapMutexes kRuntimeISA) m))
         = ENeedSwapMutexes kRuntimeISA :: l
       ∧ forallb is_native_step l = true
       ∧ count is_fallback_call (emitted m (c (record (ENeedSwapMutexes kRuntimeISA) m)))
         = 0%nat).
  { intros A c Hc. destruct (emitted_after_selector c m Hc) as (l & Hl & Hn).
    exists l. rewrite Hl. repeat split; try done.
    destruct (native_steps_no_calls l Hn) as [H0 _].
    unfold count in *. cbn. exact H0. }
  split; [exact (Hcount _ _ (Read64_branch_native target addr)) |].
  split; [exact (Hcount _ _ (Write64_branch_native target addr value)) |].
  split; [exact (Hcount _ _ (Cas64_branch_native old_value new_value addr)) |].
  repeat split.
Qed.

(** C5. Each of [Read64], [Write64] and [Cas64] is one call of the selector
    on [kRuntimeISA] followed by the branch its answer picks; the selector
    shows once in what the call leaves in the trace.  The branch for the
    answer true is the call of the mutex-striped member and nothing else;
    the branch for the answer false stays within native steps. *)
Theorem selector_consulted_once (target : BuildTarget)
    (addr value old_value new_value : Z) (m : machine InstructionSet) :
  (Read64' target addr m
     = Read64_branch target fallbackRead64 (NeedSwapMutexes kRuntimeISA) addr
         (record (ENeedSwapMutexes kRuntimeISA) m)
   ∧ count is_selector_call (emitted m (Read64' target addr m)) = 1%nat)
  ∧ (Write64' target addr value m
       = Write64_branch target fallbackWrite64 (NeedSwapMutexes kRuntimeISA) addr value
           (record (ENeedSwapMutexes kRuntimeISA) m)
     ∧ count is_selector_call (emitted m (Write64' target addr value m)) = 1%nat)
  ∧ (Cas64' old_value new_value addr m
       = Cas64_branch fallbackCas64 (NeedSwapMutexes kRuntimeISA) old_value new_value addr
           (record (ENeedSwapMutexes kRuntimeISA) m)
     ∧ count is_selector_call (emitted m (Cas64' old_value new_value addr m)) = 1%nat)
  ∧ (Read64_branch target fallbackRead64 true addr
       = call_SwapMutexRead64 fallbackRead64 addr
     ∧ Write64_branch target fallbackWrite64 true addr value
       = call_SwapMutexWrite64 fallbackWrite64 addr value
     ∧ Cas64_branch fallbackCas64 true old_value new_value addr
       = call_SwapMutexCas64 fallbackCas64 old_value new_value addr)
  ∧ (native_here (Read64_branch target fallbackRead64 false addr)
     ∧ native_here (Write64_branch target fallbackWrite64 false addr value)
     ∧ native_here (Cas64_branch fallbackCas64 false old_value new_value addr)).
Proof.
  assert (Hone : ∀ A (c : M InstructionSet A), native_here c →
    count is_selector_call (emitted m (c (record (ENeedSwapMutexes kRuntimeISA) m)))
    = 1%nat).
  { intros A c Hc. destruct (emitted_after_selector c m Hc) as (l & -> & Hn).
    destruct (native_steps_no_calls l Hn) as [_ H0].
    unfold count in *. cbn. by rewrite H0. }
  split; [split; [reflexivity | exact (Hone _ _ (Read64_branch_native target addr))] |].
  split; [split; [reflexivity | exact (Hone _ _ (Write64_branch_native target addr value))] |].
  split; [split; [reflexivity | exact (Hone _ _ (Cas64_branch_native old_value new_value addr))] |].
  split; [by repeat split |].
  split; [apply Read64_branch_native |].
  split; [apply Write64_branch_native | apply Cas64_branch_native].
Qed.

(** C6. [LongAtomicsUseMutexes] (the spec's RequiresFallback) returns, on
    any two machines, the same boolean, which is [NeedSwapMutexes isa] and
    depends on nothing but [isa]; the call changes neither memory, nor the
    pool, nor the pending hardware answers: it only shows in the trace. *)
Theorem LongAtomicsUseMutexes_pure (isa : InstructionSet) (m1 m2 : machine InstructionSet) :
  ∃ b : bool,
    b = NeedSwapMutexes isa
    ∧ LongAtomicsUseMutexes isa m1 = Returns b (record (ENeedSwapMutexes isa) m1)
    ∧ LongAtomicsUseMutexes isa m2 = Returns b (record (ENeedSwapMutexes isa) m2)
    ∧ memory (final (LongAtomicsUseMutexes isa m1)) = memory m1
    ∧ gSwapMutexes (final (LongAtomicsUseMutexes isa m1)) = gSwapMutexes m1
    ∧ exclusive_ok (final (LongAtomicsUseMutexes isa m1)) = exclusive_ok m1.
Proof. exists (NeedSwapMutexes isa). by repeat split. Qed.

(** *** Targets without a native branch *)

(** C7. When the target is neither LP64, nor ARM, nor i386 (the selector
    never routes to the mutexes), [Read64] and [Write64] do not return:
    they abort the process with the diagnostic "Unsupported architecture",
    and memory is left as it was. *)
Theorem unsupported_architecture_is_fatal (target : BuildTarget)
    (addr value : Z) (m : machine InstructionSet) :
  has_native_path target = false →
  NeedSwapMutexes kRuntimeISA = false
  ∧ Read64' target addr m
    = Aborts "Unsupported architecture"
        (record (ELogFatal "Unsupported architecture")
           (record (ENeedSwapMutexes kRuntimeISA) m))
  ∧ Write64' target addr value m
    = Aborts "Unsupported architecture"
        (record (ELogFatal "Unsupported architecture")
           (record (ENeedSwapMutexes kRuntimeISA) m))
  ∧ memory (final (Read64' target addr m)) = memory m
  ∧ memory (final (Write64' target addr value m)) = memory m.
Proof.
  unfold has_native_path. intros H.
  apply orb_false_elim in H as [H Hx]. apply orb_false_elim in H as [Hl Ha].
  run. rewrite Hl, Ha, Hx. by repeat split.
Qed.

(** *** The constructor fence *)

(** C8, as the code has it.  [ThreadFenceForConstructor] emits one fence
    and returns.  The fence always keeps earlier stores ahead of later
    stores and never orders anything ahead of a later load.  It is the
    store-store barrier [dmb ishst], and nothing more, exactly on aarch64;
    on every other target it is the C++ release fence, which also keeps
    earlier loads ahead of later stores. *)
Theorem ThreadFenceForConstructor_orders_stores (target : BuildTarget)
    (m : machine InstructionSet) :
  ThreadFenceForConstructor target m
    = Returns tt (record (EFence (ThreadFenceForConstructor_fence target)) m)
  ∧ ThreadFenceForConstructor_fence target
    = (if __aarch64__ target then dmb_ishst
       else atomic_thread_fence memory_order_release)
  ∧ orders (ThreadFenceForConstructor_fence target) StoreAccess StoreAccess = true
  ∧ orders (ThreadFenceForConstructor_fence target) StoreAccess LoadAccess = false
  ∧ orders (ThreadFenceForConstructor_fence target) LoadAccess LoadAccess = false
  ∧ orders (ThreadFenceForConstructor_fence target) LoadAccess StoreAccess
    = negb (__aarch64__ target)
  ∧ store_store_only (ThreadFenceForConstructor_fence target) = __aarch64__ target.
Proof.
  unfold ThreadFenceForConstructor, ThreadFenceForConstructor_fence, emit.
  by destruct (__aarch64__ target).
Qed.

(** *** The retry loop of [Write64] *)

Lemma first_true (l : list bool) :
  In true l → ∃ n rest, l = replicate n false ++ true :: rest.
Proof.
  induction l as [| b l IH]; [done |]. intros [-> | Hin].
  - by exists 0%nat, l.
  - destruct b; [by exists 0%nat, l |].
    destruct (IH Hin) as (n & rest & ->). by exists (S n), rest.
Qed.

(** [n] failing turns use up [n] units of fuel and [n] hardware answers,
    and leave memory alone. *)
Lemma do_while_failed_turns (n fuel : nat) (addr value cur : Z) (pending : list bool)
    (m : machine InstructionSet) :
  memory m !! addr = Some cur →
  exclusive_ok m = replicate n false ++ pending →
  Write64_do_while (n + fuel) addr value m
  = Write64_do_while fuel addr value (after_failed_turns n addr value pending m).
Proof.
  revert m. induction n as [| n IH]; intros m Hcur Hok.
  - cbn in *. f_equal. unfold after_failed_turns. destruct m; cbn in *.
    by rewrite app_nil_r, Hok.
  - cbn [Nat.add Write64_do_while]. unfold mbind, M_bind, exec_load, exec_strexd.
    cbn. rewrite Hcur. cbn. rewrite Hcur, Hok. cbn.
    rewrite (bool_decide_eq_true_2 (1 ≠ 0)) by done.
    rewrite IH with (m := record (EInsn (strexd addr value 1))
      {| memory := memory m; exclusive_ok := replicate n false ++ pending;
         gSwapMutexes := gSwapMutexes m;
         trace := trace m ++ [EInsn (ldrexd addr)] |}); [| done | done].
    f_equal. unfold after_failed_turns, record. cbn. f_equal.
    by rewrite <- !app_assoc.
Qed.

(** Any fuel above the number of hardware answers left does the same: the
    loop stops on an answer, or for want of one, never for want of fuel. *)
Lemma do_while_fuel (fuel fuel' : nat) (addr value : Z) (m : machine InstructionSet) :
  (length (exclusive_ok m) < fuel)%nat →
  (length (exclusive_ok m) < fuel')%nat →
  Write64_do_while fuel addr value m = Write64_do_while fuel' addr value m.
Proof.
  revert fuel' m. induction fuel as [| fuel IH]; intros fuel' m Hf Hf'; [lia |].
  destruct fuel' as [| fuel']; [lia |].
  cbn [Write64_do_while]. unfold mbind, M_bind, exec_load, exec_strexd. cbn.
  destruct (memory m !! addr) as [cur |] eqn:Hcur; cbn; [| done].
  rewrite Hcur.
  destruct (exclusive_ok m) as [| ok rest] eqn:Hok; cbn; [done |].
  destruct ok; cbn.
  - by rewrite (bool_decide_eq_false_2 (0 ≠ 0)) by (intros H; by apply H).
  - rewrite (bool_decide_eq_true_2 (1 ≠ 0)) by done.
    cbn in Hf, Hf'. apply IH; cbn; lia.
Qed.

(** The loop on a machine whose next [n] exclusive stores fail and whose
    following one goes through. *)
Lemma do_while_returns (n fuel : nat) (addr value cur : Z) (rest : list bool)
    (m : machine InstructionSet) :
  memory m !! addr = Some cur →
  exclusive_ok m = replicate n false ++ true :: rest →
  Write64_do_while (n + S fuel) addr value m
  = Returns tt
      {| memory := <[addr := value]> (memory m); exclusive_ok := rest;
         gSwapMutexes := gSwapMutexes m;
         trace := trace m ++ mjoin (replicate n (retry_turn addr value 1))
                    ++ retry_turn addr value 0 |}.
Proof.
  intros Hcur Hok.
  rewrite (do_while_failed_turns n (S fuel) addr value cur (true :: rest) m Hcur Hok).
  cbn [Write64_do_while]. unfold mbind, M_bind, exec_load, exec_strexd.
  cbn. rewrite Hcur. cbn. rewrite Hcur. cbn.
  rewrite (bool_decide_eq_false_2 (0 ≠ 0)) by (intros H; by apply H).
  unfold record, poke. cbn. f_equal. f_equal. by rewrite <- !app_assoc.
Qed.

(** The loop on a machine whose exclusive stores all fail: after the [n]
    answers it is still in the loop. *)
Lemma do_while_spins (n : nat) (addr value cur : Z) (m : machine InstructionSet) :
  memory m !! addr = Some cur →
  exclusive_ok m = replicate n false →
  Write64_do_while (S n) addr value m
  = Spins (record (EInsn (ldrexd addr)) (after_failed_turns n addr value [] m)).
Proof.
  intros Hcur Hok. replace (S n) with (n + 1)%nat by lia.
  rewrite (do_while_failed_turns n 1 addr value cur [] m Hcur);
    [| by rewrite app_nil_r].
  cbn [Write64_do_while]. unfold mbind, M_bind, exec_load, exec_strexd.
  cbn. rewrite Hcur. cbn. by rewrite Hcur.
Qed.

Lemma Write64_on_retry_target (target : BuildTarget) (addr value : Z)
    (m : machine InstructionSet) :
  uses_retry_loop target = true →
  Write64' target addr value m
  = Write64_do_while (S (length (exclusive_ok m))) addr value
      (record (ENeedSwapMutexes kRuntimeISA) m).
Proof.
  unfold uses_retry_loop. intros H.
  apply andb_prop in H as [H Hlpae]. apply andb_prop in H as [Hlp Harm].
  apply negb_true_iff in Hlpae, Hlp.
  run. by rewrite Hlp, Harm, Hlpae.
Qed.

Lemma Write64_loop_returns (target : BuildTarget) (addr value cur : Z) (n : nat)
    (rest : list bool) (m : machine InstructionSet) :
  uses_retry_loop target = true →
  memory m !! addr = Some cur →
  exclusive_ok m = replicate n false ++ true :: rest →
  Write64' target addr value m
  = Returns tt
      {| memory := <[addr := value]> (memory m); exclusive_ok := rest;
         gSwapMutexes := gSwapMutexes m;
         trace := (trace m ++ [ENeedSwapMutexes kRuntimeISA])
                    ++ mjoin (replicate n (retry_turn addr value 1))
                    ++ retry_turn addr value 0 |}.
Proof.
  intros Ht Hcur Hok. rewrite (Write64_on_retry_target target addr value m Ht).
  rewrite Hok, length_app, length_replicate. cbn [length].
  replace (S (n + S (length rest))) with (n + S (S (length rest)))%nat by lia.
  by rewrite (do_while_returns n (S (length rest)) addr value cur rest
                (record (ENeedSwapMutexes kRuntimeISA) m)).
Qed.

(** C9. On a target with the retry loop (32-bit ARM without LPAE) and a
    valid address: if the hardware fails the first [n] exclusive stores and
    lets the next one through, [Write64] runs exactly [n] failed turns and
    one successful turn of [ldrexd]/[strexd], and only then returns, with
    the cell set; [n] is arbitrary, so the number of turns has no bound.
    If all [n] answers the hardware gives are failures, [Write64] has not
    returned after [n] turns: it is still in the loop and memory is as it
    was. *)
Theorem Write64_retries_until_strexd_succeeds (target : BuildTarget)
    (addr value cur : Z) (n : nat) (m : machine InstructionSet) :
  uses_retry_loop target = true →
  memory m !! addr = Some cur →
  (∀ rest, exclusive_ok m = replicate n false ++ true :: rest →
     Write64' target addr value m
     = Returns tt
         {| memory := <[addr := value]> (memory m); exclusive_ok := rest;
            gSwapMutexes := gSwapMutexes m;
            trace := (trace m ++ [ENeedSwapMutexes kRuntimeISA])
                       ++ mjoin (replicate n (retry_turn addr value 1))
                       ++ retry_turn addr value 0 |})
  ∧ (exclusive_ok m = replicate n false →
     Write64' target addr value m
     = Spins (record (EInsn (ldrexd addr))
                (after_failed_turns n addr value []
                   (record (ENeedSwapMutexes kRuntimeISA) m)))
     ∧ memory (final (Write64' target addr value m)) = memory m).
Proof.
  intros Ht Hcur. split.
  - intros rest Hok. by apply Write64_loop_returns with (cur := cur).
  - intros Hok. rewrite (Write64_on_retry_target target addr value m Ht).
    rewrite Hok, length_replicate.
    by rewrite (do_while_spins n addr value cur
                  (record (ENeedSwapMutexes kRuntimeISA) m)).
Qed.

(** *** Write, then read *)

Lemma Read64_returns_cell (target : BuildTarget) (addr value : Z)
    (m : machine InstructionSet) :
  has_native_path target = true →
  memory m !! addr = Some value →
  ∃ m', Read64' target addr m = Returns value m' ∧ memory m' = memory m.
Proof.
  unfold has_native_path. intros Ht Hv. run.
  destruct (__LP64__ target), (__arm__ target), (__ARM_FEATURE_LPAE target),
    (__i386__ target); try discriminate Ht; cbn; rewrite Hv; by eexists.
Qed.

Lemma Write64_sets_cell (target : BuildTarget) (addr value cur : Z)
    (m : machine InstructionSet) :
  has_native_path target = true →
  memory m !! addr = Some cur →
  (uses_retry_loop target = true → In true (exclusive_ok m)) →
  ∃ m', Write64' target addr value m = Returns tt m'
      ∧ memory m' = <[addr := value]> (memory m).
Proof.
  intros Ht Hcur Hhw.
  destruct (uses_retry_loop target) eqn:Hloop.
  - destruct (first_true _ (Hhw eq_refl)) as (n & rest & Hok).
    rewrite (Write64_loop_returns target addr value cur n rest m Hloop Hcur Hok).
    by eexists.
  - clear Hhw. revert Ht Hloop. unfold has_native_path, uses_retry_loop. run.
    destruct (__LP64__ target), (__arm__ target), (__ARM_FEATURE_LPAE target),
      (__i386__ target); try discriminate; intros _ _; cbn; rewrite Hcur; by eexists.
Qed.

(** C3. On a target with a native branch and a valid address, [Write64]
    returns (on the retry-loop target: provided the hardware lets one of
    the exclusive stores through), and a [Read64] of the same address then
    returns exactly the value written, on the machine [Write64] left and
    on every later machine in which the cell at [addr] was not written in
    between. *)
Theorem Write64_then_Read64 (target : BuildTarget) (addr value cur : Z)
    (m : machine InstructionSet) :
  has_native_path target = true →
  memory m !! addr = Some cur →
  (uses_retry_loop target = true → In true (exclusive_ok m)) →
  ∃ m1, Write64' target addr value m = Returns tt m1
      ∧ (∃ m3, Read64' target addr m1 = Returns value m3)
      ∧ (∀ m2, memory m2 !! addr = memory m1 !! addr →
           ∃ m3, Read64' target addr m2 = Returns value m3).
Proof.
  intros Ht Hcur Hhw.
  destruct (Write64_sets_cell target addr value cur m Ht Hcur Hhw) as (m1 & Hw & Hm1).
  exists m1. split; [exact Hw |].
  assert (Hcell : memory m1 !! addr = Some value)
    by (rewrite Hm1; apply lookup_insert_eq).
  split.
  - destruct (Read64_returns_cell target addr value m1 Ht Hcell) as (m3 & Hr & _).
    by exists m3.
  - intros m2 Hsame. rewrite Hcell in Hsame.
    destruct (Read64_returns_cell target addr value m2 Ht Hsame) as (m3 & Hr & _).
    by exists m3.
Qed.
End Properties.

(** ** Properties of the mutex pool *)

Create HintDb pool.

Section PoolProperties.
Context {InstructionSet : Type}.
Variable kRuntimeISA : InstructionSet.
Variable RequiresFallback : InstructionSet → bool.
Variable AddressStripeMapping : Z → nat.
Variable target : BuildTarget.

Local Abbreviation keeps_here := (keeps_pool (ISA := InstructionSet)).

Lemma keeps_pool_ret {A} (a : A) : keeps_here (mret a).
Proof. by intros m. Qed.

Lemma keeps_pool_bind {A B} (c : M InstructionSet A) (k : A → M InstructionSet B) :
  keeps_here c → (∀ a, keeps_here (k a)) → keeps_here (c ≫= k).
Proof.
  intros Hc Hk m. specialize (Hc m). unfold mbind, M_bind.
  destruct (c m) as [a m1 | d m1 | m1 | m1]; cbn in *; try done.
  by rewrite Hk.
Qed.

Lemma keeps_pool_emit e : keeps_here (emit e).
Proof. by intros m. Qed.

Lemma keeps_pool_load i addr : keeps_here (exec_load i addr).
Proof. intros m. unfold exec_load. by destruct (memory m !! addr). Qed.

Lemma keeps_pool_store i addr value : keeps_here (exec_store i addr value).
Proof. intros m. unfold exec_store. by destruct (memory m !! addr). Qed.

Lemma keeps_pool_strexd addr value : keeps_here (exec_strexd addr value).
Proof.
  intros m. unfold exec_strexd.
  by destruct (memory m !! addr), (exclusive_ok m) as [| [] rest].
Qed.

Lemma keeps_pool_cas addr old_value new_value :
  keeps_here (exec_sync_bool_compare_and_swap addr old_value new_value).
Proof.
  intros m. unfold exec_sync_bool_compare_and_swap.
  destruct (memory m !! addr); [| done]. by case_bool_decide.
Qed.

Lemma keeps_pool_fatal {A} diagnostic : keeps_here (@LOG_FATAL InstructionSet A diagnostic).
Proof. by intros m. Qed.

Lemma keeps_pool_do_while fuel addr value :
  keeps_here (Write64_do_while fuel addr value).
Proof.
  induction fuel as [| fuel IH]; cbn; [by intros m |].
  apply keeps_pool_bind; [apply keeps_pool_load |]. intros _.
  apply keeps_pool_bind; [apply keeps_pool_strexd |]. intros status.
  case_bool_decide; [exact IH | apply keeps_pool_ret].
Qed.

Lemma keeps_pool_selector isa : keeps_here (call_NeedSwapMutexes isa).
Proof. by intros m. Qed.

Lemma keeps_pool_Read64 f addr :
  (∀ a, keeps_here (f a)) → keeps_here (Read64 kRuntimeISA target f addr).
Proof.
  intros Hf. apply keeps_pool_bind; [apply keeps_pool_selector |]. intros need.
  unfold Read64_branch. destruct need; cbn [negb].
  { apply keeps_pool_bind; [apply keeps_pool_emit | intros; apply Hf]. }
  apply keeps_pool_bind; [| intros; apply keeps_pool_ret].
  destruct (__LP64__ target), (__arm__ target), (__ARM_FEATURE_LPAE target),
    (__i386__ target); first [apply keeps_pool_load | apply keeps_pool_fatal].
Qed.

Lemma keeps_pool_Write64 f addr value :
  (∀ a v, keeps_here (f a v)) → keeps_here (Write64 kRuntimeISA target f addr value).
Proof.
  intros Hf. apply keeps_pool_bind; [apply keeps_pool_selector |]. intros need.
  unfold Write64_branch. destruct need; cbn [negb].
  { apply keeps_pool_bind; [apply keeps_pool_emit | intros; apply Hf]. }
  destruct (__LP64__ target), (__arm__ target), (__ARM_FEATURE_LPAE target),
    (__i386__ target);
    first [apply keeps_pool_store | apply keeps_pool_fatal
          | intros m; exact (keeps_pool_do_while _ _ _ m)].
Qed.

Lemma keeps_pool_Cas64 f old_value new_value addr :
  (∀ o n a, keeps_here (f o n a)) →
  keeps_here (Cas64 kRuntimeISA f old_value new_value addr).
Proof.
  intros Hf. apply keeps_pool_bind; [apply keeps_pool_selector |]. intros need.
  unfold Cas64_branch. destruct need; cbn [negb].
  { apply keeps_pool_bind; [apply keeps_pool_emit | intros; apply Hf]. }
  apply keeps_pool_cas.
Qed.

(** Taking or releasing a lock changes its state, not the pool. *)
Lemma stripes_insert (pool : list Mutex) (i : nat) (mu : Mutex) (h : bool) :
  pool !! i = Some mu →
  stripe <$> <[i := {| stripe := stripe mu; held := h |}]> pool = stripe <$> pool.
Proof.
  intros Hmu. rewrite list_fmap_insert. cbn.
  apply list_insert_id. by rewrite list_lookup_fmap, Hmu.
Qed.

Lemma keeps_pool_GetSwapMutex addr :
  keeps_here (GetSwapMutex AddressStripeMapping addr).
Proof.
  intros m. unfold GetSwapMutex.
  destruct (gSwapMutexes m) as [pool |]; [| done].
  by destruct (pool !! AddressStripeMapping addr).
Qed.

Lemma keeps_pool_ExclusiveLock i : keeps_here (ExclusiveLock i).
Proof.
  intros m. unfold ExclusiveLock, pool_stripes.
  destruct (gSwapMutexes m) as [pool |] eqn:Hpool; cbn; [| by rewrite Hpool].
  destruct (pool !! i) as [mu |] eqn:Hmu; cbn; [| by rewrite Hpool].
  destruct (held mu); cbn; [by rewrite Hpool |].
  by rewrite (stripes_insert pool i mu true Hmu).
Qed.

Lemma keeps_pool_ExclusiveUnlock i : keeps_here (ExclusiveUnlock i).
Proof.
  intros m. unfold ExclusiveUnlock, pool_stripes.
  destruct (gSwapMutexes m) as [pool |] eqn:Hpool; cbn; [| by rewrite Hpool].
  destruct (pool !! i) as [mu |] eqn:Hmu; cbn; [| by rewrite Hpool].
  by rewrite (stripes_insert pool i mu false Hmu).
Qed.

#[local] Hint Resolve keeps_pool_ret keeps_pool_emit keeps_pool_load
  keeps_pool_store keeps_pool_strexd keeps_pool_cas keeps_pool_fatal
  keeps_pool_selector keeps_pool_GetSwapMutex keeps_pool_ExclusiveLock
  keeps_pool_ExclusiveUnlock : pool.

(** Walk down a sequence of binds, closing each step from the hints. *)
Ltac keeps :=
  repeat first
    [ apply keeps_pool_bind; [| intros ?]
    | case_bool_decide
    | solve [eauto with pool] ].

Lemma keeps_pool_SwapMutexRead64 addr :
  keeps_here (SwapMutexRead64 AddressStripeMapping addr).
Proof. unfold SwapMutexRead64. keeps. Qed.

Lemma keeps_pool_SwapMutexWrite64 addr val :
  keeps_here (SwapMutexWrite64 AddressStripeMapping addr val).
Proof. unfold SwapMutexWrite64. keeps. Qed.

Lemma keeps_pool_SwapMutexCas64 old_value new_value addr :
  keeps_here (SwapMutexCas64 AddressStripeMapping old_value new_value addr).
Proof. unfold SwapMutexCas64. keeps. Qed.

Lemma keeps_pool_void {A} (c : M InstructionSet A) :
  keeps_here c → keeps_here (void c).
Proof. intros Hc. apply keeps_pool_bind; [done | intros; apply keeps_pool_ret]. Qed.

Lemma keeps_pool_perform (o : @operation InstructionSet) :
  keeps_here (perform kRuntimeISA AddressStripeMapping target o).
Proof.
  destruct o; cbn.
  - apply keeps_pool_void, keeps_pool_Read64, keeps_pool_SwapMutexRead64.
  - apply keeps_pool_Write64, keeps_pool_SwapMutexWrite64.
  - apply keeps_pool_void, keeps_pool_Cas64, keeps_pool_SwapMutexCas64.
  - apply keeps_pool_void, keeps_pool_selector.
  - apply keeps_pool_emit.
  - apply keeps_pool_void, keeps_pool_SwapMutexRead64.
  - apply keeps_pool_SwapMutexWrite64.
  - apply keeps_pool_void, keeps_pool_SwapMutexCas64.
Qed.

Lemma keeps_pool_perform_all (os : list (@operation InstructionSet)) :
  keeps_here (perform_all kRuntimeISA AddressStripeMapping target os).
Proof.
  induction os as [| o os IH]; cbn; [apply keeps_pool_ret |].
  apply keeps_pool_bind; [apply keeps_pool_perform | intros _; exact IH].
Qed.

(** C10. With fallback selected for the running architecture, [Startup]
    returns with a pool of exactly [kSwapMutexCount] = 32 locks, one for
    each position 0..31, none of them held.  Whatever calls of the class follow, and however the last
    of them ends, the pool is still there with the same 32 locks in the
    same positions: none was added, none removed, and the size is not
    zero. *)
Theorem MutexPool_fixed_while_active (os : list (@operation InstructionSet))
    (m : machine InstructionSet) :
  RequiresFallback kRuntimeISA = true →
  kSwapMutexCount = 32%nat
  ∧ ∃ m1 pool,
      Startup kRuntimeISA RequiresFallback m = Returns tt m1
      ∧ gSwapMutexes m1 = Some pool
      ∧ length pool = kSwapMutexCount
      ∧ stripe <$> pool = seq 0 kSwapMutexCount
      ∧ Forall (λ mu, held mu = false) pool
      ∧ ∃ pool',
          gSwapMutexes (final (perform_all kRuntimeISA AddressStripeMapping target os m1))
          = Some pool'
          ∧ stripe <$> pool' = stripe <$> pool
          ∧ length pool' = kSwapMutexCount
          ∧ length pool' ≠ 0%nat.
Proof.
  intros Hfb. split; [reflexivity |].
  unfold Startup. rewrite Hfb.
  eexists _, _. split; [reflexivity |]. split; [reflexivity |].
  split; [by rewrite length_fmap, length_seq |].
  split; [by rewrite <- list_fmap_compose, list_fmap_id |].
  split; [by apply Forall_fmap, Forall_forall |].
  pose proof (keeps_pool_perform_all os
    (set_pool (Some (new_Mutex <$> seq 0 kSwapMutexCount)) m)) as Hkeep.
  unfold pool_stripes in Hkeep.
  destruct (gSwapMutexes (final _)) as [pool' |]; [| discriminate Hkeep].
  cbn in Hkeep. injection Hkeep as Hkeep.
  exists pool'. split; [reflexivity |]. split; [exact Hkeep |].
  assert (Hlen : length pool' = kSwapMutexCount).
  { rewrite <- (length_fmap stripe pool'), Hkeep. reflexivity. }
  split; [exact Hlen |]. by rewrite Hlen.
Qed.
End PoolProperties.

(** ** Further properties of the accessors *)

Section Accessors.
Context {InstructionSet : Type}.
Variable kRuntimeISA : InstructionSet.
Variable fallbackRead64 : Z → M InstructionSet int64_t.
Variable fallbackWrite64 : Z → int64_t → M InstructionSet unit.
Variable fallbackCas64 : int64_t → int64_t → Z → M InstructionSet bool.

Local Abbreviation Read64' t := (Read64 kRuntimeISA t fallbackRead64).
Local Abbreviation Write64' t := (Write64 kRuntimeISA t fallbackWrite64).
Local Abbreviation Cas64' := (Cas64 kRuntimeISA fallbackCas64).

(** *** What the accessors leave alone *)

(** [Read64] is an observation: whatever the target, whether or not the
    address is valid, and however the call ends, the cells, the pool and
    the pending hardware answers are as before. *)
Theorem Read64_read_only (target : BuildTarget) (addr : Z) (m : machine InstructionSet) :
  memory (final (Read64' target addr m)) = memory m
  ∧ exclusive_ok (final (Read64' target addr m)) = exclusive_ok m
  ∧ gSwapMutexes (final (Read64' target addr m)) = gSwapMutexes m.
Proof.
  run.
  destruct (__LP64__ target), (__arm__ target), (__ARM_FEATURE_LPAE target),
    (__i386__ target); cbn; by destruct (memory m !! addr).
Qed.

Lemma do_while_all_or_nothing (fuel : nat) (addr value : Z) (m : machine InstructionSet) :
  memory (final (Write64_do_while fuel addr value m))
  = match returned (Write64_do_while fuel addr value m) with
    | Some _ => <[addr := value]> (memory m)
    | None => memory m
    end
  ∧ gSwapMutexes (final (Write64_do_while fuel addr value m)) = gSwapMutexes m.
Proof.
  revert m. induction fuel as [| fuel IH]; intros m; [done |].
  cbn [Write64_do_while]. unfold mbind, M_bind, exec_load, exec_strexd. cbn.
  destruct (memory m !! addr) as [cur |] eqn:Hcur; cbn; [| done].
  rewrite Hcur.
  destruct (exclusive_ok m) as [| ok rest] eqn:Hok; cbn; [done |].
  destruct ok; cbn.
  - by rewrite (bool_decide_eq_false_2 (0 ≠ 0)) by (intros H; by apply H).
  - rewrite (bool_decide_eq_true_2 (1 ≠ 0)) by done.
    match goal with
    | |- context [Write64_do_while fuel addr value ?m'] => exact (IH m')
    end.
Qed.

(** [Write64] stores all or nothing.  Whatever the target, the address and
    the hardware answers: when the call returns, the cells are the old
    ones with [addr] set to [value] and nothing else changed; when it does
    not return (fatal diagnostic, invalid address, still retrying), no cell
    has changed at all.  The pool is never touched. *)
Theorem Write64_all_or_nothing (target : BuildTarget) (addr value : Z)
    (m : machine InstructionSet) :
  memory (final (Write64' target addr value m))
  = match returned (Write64' target addr value m) with
    | Some _ => <[addr := value]> (memory m)
    | None => memory m
    end
  ∧ gSwapMutexes (final (Write64' target addr value m)) = gSwapMutexes m.
Proof.
  destruct (uses_retry_loop target) eqn:Hloop.
  - rewrite (Write64_on_retry_target kRuntimeISA fallbackWrite64 target addr value m Hloop).
    apply (do_while_all_or_nothing _ addr value
             (record (ENeedSwapMutexes kRuntimeISA) m)).
  - revert Hloop. unfold uses_retry_loop. run.
    destruct (__LP64__ target), (__arm__ target), (__ARM_FEATURE_LPAE target),
      (__i386__ target); try discriminate; intros _; cbn;
      by destruct (memory m !! addr).
Qed.

(** *** Which instructions are emitted *)

Section Appends.
Variable p : event InstructionSet → bool.

Lemma appends_only_ret {A} (a : A) : appends_only p (mret a : M InstructionSet A).
Proof. intros m. exists []. by rewrite app_nil_r. Qed.

Lemma appends_only_bind {A B} (c : M InstructionSet A) (k : A → M InstructionSet B) :
  appends_only p c → (∀ a, appends_only p (k a)) → appends_only p (c ≫= k).
Proof.
  intros Hc Hk m. destruct (Hc m) as (l & Hl & Hp).
  unfold mbind, M_bind. destruct (c m) as [a m1 | d m1 | m1 | m1]; cbn in *; eauto.
  destruct (Hk a m1) as (l' & Hl' & Hp').
  exists (l ++ l'). rewrite Hl', Hl, forallb_app, Hp, Hp'.
  split; [by rewrite <- app_assoc | done].
Qed.

Lemma appends_only_emit e : p e = true → appends_only p (emit e).
Proof. intros He m. exists [e]. cbn. by rewrite He. Qed.

Lemma appends_only_fatal {A} d :
  p (ELogFatal d) = true → appends_only p (@LOG_FATAL InstructionSet A d).
Proof. intros He m. exists [ELogFatal d]. cbn. by rewrite He. Qed.

Lemma appends_only_load i addr :
  p (EInsn (i addr)) = true → appends_only p (exec_load i addr).
Proof.
  intros He m. unfold exec_load. destruct (memory m !! addr); cbn.
  - exists [EInsn (i addr)]. cbn. by rewrite He.
  - exists []. by rewrite app_nil_r.
Qed.

Lemma appends_only_store i addr value :
  p (EInsn (i addr value)) = true → appends_only p (exec_store i addr value).
Proof.
  intros He m. unfold exec_store. destruct (memory m !! addr); cbn.
  - exists [EInsn (i addr value)]. cbn. by rewrite He.
  - exists []. by rewrite app_nil_r.
Qed.

Lemma appends_only_strexd addr value :
  (∀ status, p (EInsn (strexd addr value status)) = true) →
  appends_only p (exec_strexd addr value).
Proof.
  intros He m. unfold exec_strexd.
  destruct (memory m !! addr); [| exists []; by rewrite app_nil_r].
  destruct (exclusive_ok m) as [| [] rest]; cbn.
  - exists []. by rewrite app_nil_r.
  - exists [EInsn (strexd addr value 0)]. cbn. by rewrite He.
  - exists [EInsn (strexd addr value 1)]. cbn. by rewrite He.
Qed.

Lemma appends_only_cas addr old_value new_value :
  p (EInsn (sync_bool_compare_and_swap addr old_value new_value)) = true →
  appends_only p (exec_sync_bool_compare_and_swap addr old_value new_value).
Proof.
  intros He m. unfold exec_sync_bool_compare_and_swap.
  destruct (memory m !! addr); [| exists []; by rewrite app_nil_r].
  case_bool_decide; eexists [_]; cbn; by rewrite He.
Qed.

Lemma appends_only_do_while fuel addr value :
  p (EInsn (ldrexd addr)) = true →
  (∀ status, p (EInsn (strexd addr value status)) = true) →
  appends_only p (Write64_do_while fuel addr value).
Proof.
  intros Hl Hs. induction fuel as [| fuel IH]; cbn.
  - intros m. exists []. by rewrite app_nil_r.
  - apply appends_only_bind; [by apply appends_only_load |]. intros _.
    apply appends_only_bind; [by apply appends_only_strexd |]. intros status.
    case_bool_decide; [exact IH | apply appends_only_ret].
Qed.

Lemma appends_only_after_selector {A} (c : M InstructionSet A) :
  p (ENeedSwapMutexes kRuntimeISA) = true →
  appends_only p c →
  appends_only p (λ m, c (record (ENeedSwapMutexes kRuntimeISA) m)).
Proof.
  intros He Hc m.
  destruct (Hc (record (ENeedSwapMutexes kRuntimeISA) m)) as (l & Hl & Hp).
  exists (ENeedSwapMutexes kRuntimeISA :: l). rewrite Hl. cbn.
  rewrite He, Hp. split; [by rewrite <- app_assoc | done].
Qed.

Lemma appends_only_emitted {A} (c : M InstructionSet A) (m : machine InstructionSet) :
  appends_only p c → forallb p (emitted m (c m)) = true.
Proof.
  intros Hc. destruct (Hc m) as (l & Hl & Hp).
  by rewrite (emitted_app m (c m) l Hl).
Qed.
End Appends.

Lemma Read64_allowed (target : BuildTarget) (addr : Z) :
  appends_only (allowed_on target) (Read64' target addr).
Proof.
  apply (appends_only_after_selector (allowed_on target)
           (Read64_branch target fallbackRead64 false addr) eq_refl).
  unfold Read64_branch. destruct target as [lp arm lpae x86 a64]. cbn.
  apply appends_only_bind; [| intros; apply appends_only_ret].
  destruct lp, arm, lpae, x86;
    first [by apply appends_only_load | by apply appends_only_fatal].
Qed.

Lemma Write64_allowed (target : BuildTarget) (addr value : Z) :
  appends_only (allowed_on target) (Write64' target addr value).
Proof.
  apply (appends_only_after_selector (allowed_on target)
           (Write64_branch target fallbackWrite64 false addr value) eq_refl).
  unfold Write64_branch. destruct target as [lp arm lpae x86 a64].
  destruct lp, arm, lpae, x86;
    first [ by apply appends_only_store
          | by apply appends_only_fatal
          | intros m;
            exact (appends_only_do_while _ _ addr value eq_refl (λ _, eq_refl) m) ].
Qed.

Lemma Cas64_allowed (target : BuildTarget) (old_value new_value addr : Z) :
  appends_only (allowed_on target) (Cas64' old_value new_value addr).
Proof.
  apply (appends_only_after_selector (allowed_on target)
           (Cas64_branch fallbackCas64 false old_value new_value addr) eq_refl).
  by apply appends_only_cas.
Qed.

(** Every instruction an accessor emits is one the header compiles in for
    the target: a plain 64-bit access only under [__LP64__]; [ldrd] and
    [strd] only on ARM with LPAE; [ldrexd] and [strexd] only on ARM without
    it; [movq] only on i386; and never a call of a mutex member.  This
    holds for every address and however the call ends. *)
Theorem accessors_emit_compiled_in_only (target : BuildTarget)
    (addr value old_value new_value : Z) (m : machine InstructionSet) :
  forallb (allowed_on target) (emitted m (Read64' target addr m)) = true
  ∧ forallb (allowed_on target) (emitted m (Write64' target addr value m)) = true
  ∧ forallb (allowed_on target) (emitted m (Cas64' old_value new_value addr m)) = true.
Proof.
  split; [apply appends_only_emitted, Read64_allowed |].
  split; [apply appends_only_emitted, Write64_allowed |].
  apply appends_only_emitted, (Cas64_allowed target).
Qed.


(** *** Sequences of calls *)

Lemma successes_after_failures (n : nat) (rest : list bool) :
  successes (replicate n false ++ true :: rest) = S (successes rest).
Proof. induction n as [| n IH]; [done |]. exact IH. Qed.

Lemma successes_In (l : list bool) : (0 < successes l)%nat → In true l.
Proof.
  induction l as [| b l IH]; cbn; [lia |].
  destruct b; [by left |]. intros H. right. by apply IH.
Qed.

Lemma Read64_step (target : BuildTarget) (addr value : Z) (m : machine InstructionSet) :
  has_native_path target = true →
  memory m !! addr = Some value →
  ∃ m', Read64' target addr m = Returns value m'
      ∧ memory m' = memory m ∧ exclusive_ok m' = exclusive_ok m.
Proof.
  unfold has_native_path. intros Ht Hv. run.
  destruct (__LP64__ target), (__arm__ target), (__ARM_FEATURE_LPAE target),
    (__i386__ target); try discriminate Ht; cbn; rewrite Hv; by eexists.
Qed.

Lemma Write64_step (target : BuildTarget) (addr value cur : Z)
    (m : machine InstructionSet) :
  has_native_path target = true →
  memory m !! addr = Some cur →
  (uses_retry_loop target = true → (0 < successes (exclusive_ok m))%nat) →
  ∃ m', Write64' target addr value m = Returns tt m'
      ∧ memory m' = <[addr := value]> (memory m)
      ∧ (uses_retry_loop target = true →
         successes (exclusive_ok m) = S (successes (exclusive_ok m'))).
Proof.
  intros Ht Hcur Hhw. destruct (uses_retry_loop target) eqn:Hloop.
  - destruct (first_true _ (successes_In _ (Hhw eq_refl))) as (n & rest & Hok).
    rewrite (Write64_loop_returns kRuntimeISA fallbackWrite64 target addr value cur
               n rest m Hloop Hcur Hok).
    eexists. split; [reflexivity |]. split; [reflexivity |].
    intros _. cbn. by rewrite Hok, successes_after_failures.
  - destruct (Write64_sets_cell kRuntimeISA fallbackWrite64 target addr value cur m
                Ht Hcur) as (m' & Hw & Hm); [by rewrite Hloop |].
    exists m'. by repeat split.
Qed.

Lemma Cas64_step (old_value new_value addr cur : Z) (m : machine InstructionSet) :
  memory m !! addr = Some cur →
  ∃ m', Cas64' old_value new_value addr m = Returns (bool_decide (cur = old_value)) m'
      ∧ memory m' = (if bool_decide (cur = old_value)
                     then <[addr := new_value]> (memory m) else memory m)
      ∧ exclusive_ok m' = exclusive_ok m.
Proof.
  intros Hcur. run. rewrite Hcur. case_bool_decide; by eexists.
Qed.

(** On a target with a native branch, a sequence of [Read64], [Write64]
    and [Cas64] calls on valid addresses answers, call by call, what the
    comments of the header promise on the cells, and leaves the cells they
    describe, the same on every such target.  On the retry-loop target the
    hardware has to let through one exclusive store for each [Write64]. *)
Theorem issue_all_as_cells (target : BuildTarget) (cs : list call)
    (m : machine InstructionSet) (answers : list answer) (cells' : gmap Z Z) :
  has_native_path target = true →
  (uses_retry_loop target = true → (writes cs ≤ successes (exclusive_ok m))%nat) →
  cell_run cs (memory m) = Some (answers, cells') →
  ∃ m', issue_all kRuntimeISA target fallbackRead64 fallbackWrite64 fallbackCas64 cs m
        = Returns answers m'
      ∧ memory m' = cells'.
Proof.
  intros Ht. revert m answers cells'.
  induction cs as [| c cs IH]; intros m answers cells' Hhw Hrun.
  - injection Hrun as <- <-. by exists m.
  - cbn in Hrun.
    destruct (cell_step c (memory m)) as [[a cells1] |] eqn:Hstep; [| done].
    destruct (cell_run cs cells1) as [[rest cells2] |] eqn:Hrest; [| done].
    injection Hrun as <- <-.
    assert (Hnext : ∃ m1, issue kRuntimeISA target fallbackRead64 fallbackWrite64
                            fallbackCas64 c m = Returns a m1
                        ∧ memory m1 = cells1
                        ∧ (uses_retry_loop target = true →
                           (writes cs ≤ successes (exclusive_ok m1))%nat)).
    { destruct c as [addr | addr value | old_value new_value addr]; cbn in Hstep.
      - destruct (memory m !! addr) as [v |] eqn:Hv; [| done].
        injection Hstep as <- <-.
        destruct (Read64_step target addr v m Ht Hv) as (m1 & Hr & Hm & Hok).
        exists m1. unfold issue, mbind, M_bind. rewrite Hr, Hok.
        by repeat split.
      - destruct (memory m !! addr) as [cur |] eqn:Hcur; [| done].
        injection Hstep as <- <-.
        destruct (Write64_step target addr value cur m Ht Hcur) as (m1 & Hw & Hm & Hok).
        { intros Hloop. specialize (Hhw Hloop).
          change (writes (CallWrite64 addr value :: cs)) with (S (writes cs)) in Hhw.
          lia. }
        exists m1. unfold issue, mbind, M_bind. rewrite Hw.
        split; [done |]. split; [done |].
        intros Hloop. specialize (Hhw Hloop). specialize (Hok Hloop).
        change (writes (CallWrite64 addr value :: cs)) with (S (writes cs)) in Hhw.
        lia.
      - destruct (memory m !! addr) as [cur |] eqn:Hcur; [| done].
        destruct (Cas64_step old_value new_value addr cur m Hcur) as (m1 & Hc & Hm & Hok).
        exists m1. unfold issue, mbind, M_bind. rewrite Hc, Hok, Hm.
        case_bool_decide; injection Hstep as <- <-; by repeat split. }
    destruct Hnext as (m1 & Hissue & Hm1 & Hhw1).
    rewrite <- Hm1 in Hrest.
    destruct (IH m1 rest cells2 Hhw1 Hrest) as (m' & Hall & Hm').
    exists m'. cbn [issue_all]. unfold mbind, M_bind at 1. rewrite Hissue.
    unfold mbind, M_bind. by rewrite Hall.
Qed.
End Accessors.

(** The second scenario of the spec: the cell holds 100, so
    [Cas64 (100, 200, addr)] succeeds. *)
Lemma Cas64_strong_witness :
  ∃ m', Cas64 kArm (λ _ _ _ m, Faults m) 100 200 4096 machine0
        = Returns (bool_decide (100 = 100)) m'
    ∧ (100 = 100 → memory m' = <[4096 := 200]> (memory machine0))
    ∧ (100 ≠ 100 → memory m' = memory machine0)
    ∧ (∀ m'', Cas64 kArm (λ _ _ _ m, Faults m) 100 200 4096 machine0
              = Returns false m'' → 100 ≠ 100)
    ∧ (∀ m'', Cas64 kArm (λ _ _ _ m, Faults m) 100 200 4096 machine0
              = Returns true m'' →
         100 = 100 ∧ memory m'' !! 4096 = Some 200).
Proof.
  apply (Cas64_strong kArm (λ _ _ _ m, Faults m) 100 200 4096 100 machine0).
  reflexivity.
Defined.


(** A 32-bit target that is neither ARM nor x86. *)
Lemma unsupported_architecture_is_fatal_witness :
  has_native_path target_other32 = false
  ∧ Read64 kX86 target_other32 (λ _ m, Faults m) 4096 machine0
    = Aborts "Unsupported architecture"
        (record (ELogFatal "Unsupported architecture")
           (record (ENeedSwapMutexes kX86) machine0))
  ∧ Write64 kX86 target_other32 (λ _ _ m, Faults m) 4096 7 machine0
    = Aborts "Unsupported architecture"
        (record (ELogFatal "Unsupported architecture")
           (record (ENeedSwapMutexes kX86) machine0)).
Proof.
  split; [reflexivity |].
  pose proof (unsupported_architecture_is_fatal kX86 (λ _ m, Faults m)
                (λ _ _ m, Faults m) target_other32 4096 7 machine0 eq_refl)
    as (_ & Hr & Hw & _).
  exact (conj Hr Hw).
Defined.

(** The first scenario of the spec, on 32-bit ARM without LPAE: the value
    0x1122334455667788 is written after two failed exclusive stores and
    read back. *)
Lemma Write64_then_Read64_witness :
  ∃ m1, Write64 kArm target_armv7 (λ _ _ m, Faults m) 4096 0x1122334455667788 machine0
        = Returns tt m1
      ∧ (∃ m3, Read64 kArm target_armv7 (λ _ m, Faults m) 4096 m1
               = Returns 0x1122334455667788 m3)
      ∧ (∀ m2, memory m2 !! 4096 = memory m1 !! 4096 →
           ∃ m3, Read64 kArm target_armv7 (λ _ m, Faults m) 4096 m2
                 = Returns 0x1122334455667788 m3).
Proof.
  apply (Write64_then_Read64 kArm (λ _ m, Faults m) (λ _ _ m, Faults m)
           target_armv7 4096 0x1122334455667788 100 machine0).
  - reflexivity.
  - reflexivity.
  - intros _. simpl. auto.
Defined.

(** Two failed turns and a successful one on [machine0]; three failed
    turns and no return on [machine_contended]. *)
Lemma Write64_retries_until_strexd_succeeds_witness :
  Write64 kArm target_armv7 (λ _ _ m, Faults m) 4096 7 machine0
  = Returns tt
      {| memory := <[4096 := 7]> (memory machine0); exclusive_ok := [];
         gSwapMutexes := None;
         trace := (trace machine0 ++ [ENeedSwapMutexes kArm])
                    ++ mjoin (replicate 2 (retry_turn 4096 7 1))
                    ++ retry_turn 4096 7 0 |}
  ∧ Write64 kArm target_armv7 (λ _ _ m, Faults m) 4096 7 machine_contended
    = Spins (record (EInsn (ldrexd 4096))
               (after_failed_turns 3 4096 7 []
                  (record (ENeedSwapMutexes kArm) machine_contended))).
Proof.
  split.
  - apply (Write64_retries_until_strexd_succeeds kArm (λ _ _ m, Faults m)
             target_armv7 4096 7 100 2 machine0); reflexivity.
  - apply (Write64_retries_until_strexd_succeeds kArm (λ _ _ m, Faults m)
             target_armv7 4096 7 100 3 machine_contended); reflexivity.
Defined.

(** C8, as the spec states it, fails on every target but aarch64.  On
    32-bit ARM the fence emitted is the C++ release fence; it keeps earlier
    loads ahead of later stores, which a store-store barrier does not. *)
Lemma ThreadFenceForConstructor_release_counterexample :
  ThreadFenceForConstructor target_armv7 machine0
    = Returns tt (record (EFence (atomic_thread_fence memory_order_release)) machine0)
  ∧ orders (ThreadFenceForConstructor_fence target_armv7) LoadAccess StoreAccess = true
  ∧ ¬ store_store_only (ThreadFenceForConstructor_fence target_armv7) = true.
Proof. split; [reflexivity |]. split; [reflexivity |]. discriminate. Qed.

(** A selector that picks the fallback, a shift-and-modulo hash, and three
    calls after [Startup]. *)
Lemma MutexPool_fixed_while_active_witness :
  always_fallback kArm = true
  ∧ ∃ m1 pool,
      Startup kArm always_fallback machine0 = Returns tt m1
      ∧ gSwapMutexes m1 = Some pool
      ∧ length pool = kSwapMutexCount
      ∧ stripe <$> pool = seq 0 kSwapMutexCount
      ∧ Forall (λ mu, held mu = false) pool
      ∧ ∃ pool',
          gSwapMutexes
            (final (perform_all kArm shift_and_modulo target_armv7
                      [OpSwapMutexWrite64 4096 5; OpSwapMutexCas64 5 6 4096;
                       OpRead64 4096] m1))
          = Some pool'
          ∧ stripe <$> pool' = stripe <$> pool
          ∧ length pool' = kSwapMutexCount
          ∧ length pool' ≠ 0%nat.
Proof.
  split; [reflexivity |].
  apply (MutexPool_fixed_while_active kArm always_fallback shift_and_modulo
           target_armv7
           [OpSwapMutexWrite64 4096 5; OpSwapMutexCas64 5 6 4096; OpRead64 4096]
           machine0).
  reflexivity.
Defined.

(** ** The scenarios of the spec, run *)

(** Scenario 2 on x86-64: the cell holds 100; [Cas64 (100, 200)] succeeds
    and leaves 200; [Cas64 (100, 300)] then fails and leaves 200. *)
Example scenario_Cas64 :
  let first := Cas64 kX86_64 (λ _ _ _ m, Faults m) 100 200 4096 machine0 in
  let second := Cas64 kX86_64 (λ _ _ _ m, Faults m) 100 300 4096 (final first) in
  returned first = Some true
  ∧ memory (final first) !! 4096 = Some 200
  ∧ returned second = Some false
  ∧ memory (final second) !! 4096 = Some 200.
Proof. vm_compute. by repeat split. Qed.

(** Scenario 1 on i386, through [movq]. *)
Example scenario_Write64_Read64 :
  let written := Write64 kX86 target_i386 (λ _ _ m, Faults m) 4096
                   0x1122334455667788 machine0 in
  returned written = Some tt
  ∧ returned (Read64 kX86 target_i386 (λ _ m, Faults m) 4096 (final written))
    = Some 0x1122334455667788
  ∧ trace (final written)
    = [ENeedSwapMutexes kX86; EInsn (movq_store 4096 0x1122334455667788)].
Proof. vm_compute. by repeat split. Qed.

(** On aarch64 the constructor fence is [dmb ishst]. *)
Example scenario_fence_arm64 :
  trace (final (ThreadFenceForConstructor (InstructionSet := SomeInstructionSet)
                  target_arm64 machine0))
  = [EFence dmb_ishst].
Proof. reflexivity. Qed.

(** ** Instances for the further properties *)


(** Five calls on 32-bit ARM without LPAE, on hardware that fails every
    other exclusive store: two writes, two successes. *)
Lemma issue_all_as_cells_witness :
  ∃ m', issue_all kArm target_armv7 (λ _ m, Faults m) (λ _ _ m, Faults m)
          (λ _ _ _ m, Faults m)
          [CallWrite64 4096 7; CallRead64 4096; CallCas64 7 8 4096;
           CallWrite64 4096 9; CallCas64 7 1 4096] machine_flaky
        = Returns [Written; ReadValue 7; Swapped true; Written; Swapped false] m'
      ∧ memory m' = {[ 4096 := 9 ]}.
Proof.
  apply (issue_all_as_cells kArm (λ _ m, Faults m) (λ _ _ m, Faults m)
           (λ _ _ _ m, Faults m) target_armv7
           [CallWrite64 4096 7; CallRead64 4096; CallCas64 7 8 4096;
            CallWrite64 4096 9; CallCas64 7 1 4096] machine_flaky
           [Written; ReadValue 7; Swapped true; Written; Swapped false]
           {[ 4096 := 9 ]}).
  - reflexivity.
  - intros _. cbn. lia.
  - vm_compute. reflexivity.
Defined.
